(** * Package [order]: describing the ordering of data

    A shallow embedding of [business/data/order/order.go] together with the
    properties of its parser and renderer.

    Go strings are byte sequences and are modelled as [string]; Go maps with
    string keys are [gmap string _]; a Go function returning [(T, error)] is
    a function into [T * option error], where [None] is the [nil] error, so
    that the value returned next to an error stays observable. *)

From Stdlib Require Import Ascii.
From stdpp Require Import gmap strings list.

(** ** The parts of the Go standard library the package calls *)

(** [strings.Split(s, sep)] for a one-byte separator, which is how [Parse]
    calls it: the substrings between the occurrences of [sep]; a string
    without separator (the empty string too) is returned as a single part. *)
Fixpoint Split (s : string) (sep : ascii) : list string :=
  match s with
  | EmptyString => [EmptyString]
  | String c s' =>
      if Ascii.eqb c sep then EmptyString :: Split s' sep
      else match Split s' sep with
           | [] => [String c EmptyString]
           | p :: ps => String c p :: ps
           end
  end.

(** Membership of a byte in an ASCII cutset. *)
Fixpoint in_cutset (c : ascii) (cutset : string) : bool :=
  match cutset with
  | EmptyString => false
  | String x cutset' => Ascii.eqb c x || in_cutset c cutset'
  end.

(** [strings.TrimLeft] and [strings.TrimRight] for an ASCII cutset. *)
Fixpoint TrimLeft (s cutset : string) : string :=
  match s with
  | EmptyString => EmptyString
  | String c s' => if in_cutset c cutset then TrimLeft s' cutset else s
  end.

Fixpoint TrimRight (s cutset : string) : string :=
  match s with
  | EmptyString => EmptyString
  | String c s' =>
      match TrimRight s' cutset with
      | EmptyString => if in_cutset c cutset then EmptyString
                       else String c EmptyString
      | t => String c t
      end
  end.

(** [strings.Trim(s, cutset)]: all leading and trailing bytes of [s] that
    occur in [cutset] removed. *)
Definition Trim (s cutset : string) : string :=
  TrimLeft (TrimRight s cutset) cutset.

(** [url.Values] and its method [Get]: the first value stored under the key,
    the empty string when there is none. *)
Abbreviation Values := (gmap string (list string)).

Definition Values_Get (v : Values) (key : string) : string :=
  match v !! key with
  | Some (x :: _) => x
  | _ => ""
  end.

(** [*http.Request], reduced to what [Parse] reads from it: the query
    values that [r.URL.Query()] returns. *)
Record Request := { URL_Query : Values }.

(** The Go [error] values the package creates. *)
Inductive error : Type :=
  | errors_New (text : string)
      (* errors.New(text) *)
  | fmt_Errorf (format operand : string)
      (* fmt.Errorf(format, operand) with a single operand *)
  | FieldsError (field : string) (err : error).
      (* the value of validate.NewFieldsError, see below *)

(** Modelled from the spec: [validate.NewFieldsError] lives in the package
    [business/sys/validate], which is not part of the sources at hand. The
    spec describes its result as a structured validation error exposing the
    offending raw input string and a short reason; the model keeps both
    arguments as they are passed. *)
Definition NewFieldsError (field : string) (err : error) : error :=
  FieldsError field err.

(** The raw input and the reason a validation error carries. *)
Definition error_field (e : error) : option string :=
  match e with
  | FieldsError f _ => Some f
  | _ => None
  end.

Definition error_reason (e : error) : option error :=
  match e with
  | FieldsError _ r => Some r
  | _ => None
  end.

(** ** Directions *)

(** [type Direction struct { name string }] *)
Record Direction := { Direction_name : string }.

Definition ASC : Direction := {| Direction_name := "ASC" |}.
Definition DESC : Direction := {| Direction_name := "DESC" |}.

(** Set of known directions. *)
Definition directions : gmap string Direction :=
  <[Direction_name DESC := DESC]> (<[Direction_name ASC := ASC]> ∅).

(** The zero value [Direction{}]. *)
Definition Direction_zero : Direction := {| Direction_name := "" |}.

(** [parseDirection] converts a string to a type Direction. *)
Definition parseDirection (value : string) : Direction * option error :=
  match directions !! value with
  | None => (Direction_zero, Some (errors_New "invalid direction"))
  | Some direction => (direction, None)
  end.

(** ** Fields *)

(** [type Field struct { name string; storage string }] *)
Record Field := { Field_name : string; Field_storage : string }.

(** The zero value [Field{}]. *)
Definition Field_zero : Field := {| Field_name := ""; Field_storage := "" |}.

(** [NewField] constructs a new field for the system. *)
Definition NewField (name : string) : Field :=
  {| Field_name := name; Field_storage := "" |}.

(** [AddStorageField] has a pointer receiver: it stores [name] in the
    receiver and returns a copy of it. The result pairs the updated receiver
    with the returned value. *)
Definition AddStorageField (f : Field) (name : string) : Field * Field :=
  let f' := {| Field_name := Field_name f; Field_storage := name |} in
  (f', f').

(** ** Field sets *)

(** [type FieldSet struct { fields map[string]Field }] *)
Record FieldSet := { FieldSet_fields : gmap string Field }.

(** [NewFieldSet]: the loop [for _, field := range fields] stores every field
    under its name, in the order of the arguments. *)
Definition NewFieldSet (fields : list Field) : FieldSet :=
  {| FieldSet_fields :=
       fold_left (fun m field => <[Field_name field := field]> m) fields ∅ |}.

(** [parseField] takes a field by string and validates it belongs to the
    set. Then returns that field in its proper type. *)
Definition parseField (fs : FieldSet) (field : string) : Field * option error :=
  match FieldSet_fields fs !! field with
  | None => (Field_zero, Some (fmt_Errorf "field %q not found" field))
  | Some f => (f, None)
  end.

(** ** Order instructions *)

(** [type By struct { field Field; direction Direction }] *)
Record By := { By_field : Field; By_direction : Direction }.

(** The zero value [By{}]. *)
Definition By_zero : By :=
  {| By_field := Field_zero; By_direction := Direction_zero |}.

(** [NewBy] constructs a new By value with no checks. *)
Definition NewBy (field : Field) (direction : Direction) : By :=
  {| By_field := field; By_direction := direction |}.

(** [Clause] returns a sql string with the ordering information. *)
Definition Clause (b : By) : string * option error :=
  (Field_storage (By_field b) +:+ " " +:+ Direction_name (By_direction b),
   None).

(** ** Parsing *)

(** [Parse] constructs an order.By value by parsing a string in the form of
    "field,direction" from the request. The [switch] on [len(orderParts)] is
    the match on the shape of the list of parts. *)
Definition Parse (r : Request) (orderingFields : FieldSet) (defaultOrder : By)
  : By * option error :=
  let v := Values_Get (URL_Query r) "orderBy" in
  if String.eqb v "" then (defaultOrder, None)
  else
    let orderParts := Split v "," in
    match orderParts with
    | [p0] =>
        match parseField orderingFields (Trim p0 " ") with
        | (_, Some _) =>
            (By_zero, Some (NewFieldsError v (errors_New "parsing fields")))
        | (field, None) => (NewBy field ASC, None)
        end
    | [p0; p1] =>
        match parseField orderingFields (Trim p0 " ") with
        | (_, Some _) =>
            (By_zero, Some (NewFieldsError v (errors_New "parsing fields")))
        | (field, None) =>
            match parseDirection (Trim p1 " ") with
            | (_, Some _) =>
                (By_zero,
                 Some (NewFieldsError v (errors_New "parsing direction")))
            | (dir, None) => (NewBy field dir, None)
            end
        end
    | _ =>
        (By_zero, Some (NewFieldsError v (errors_New "unknown order field")))
    end.

(** The directive of a request: the value of its query parameter
    [orderBy], which is all [Parse] reads from the request. *)
Definition directive (r : Request) : string :=
  Values_Get (URL_Query r) "orderBy".

(** A request whose only query parameter is [orderBy=v]. *)
Definition request_of (v : string) : Request :=
  {| URL_Query := {[ "orderBy" := [v] ]} |}.


(** ** Vocabulary of the statements *)

(** [strings.Count(s, sep)] for a one-byte separator: the number of
    occurrences of [sep] in [s]. *)
Fixpoint Count (s : string) (sep : ascii) : nat :=
  match s with
  | EmptyString => 0
  | String c s' => (if Ascii.eqb c sep then 1 else 0) + Count s' sep
  end.

(** [strings.Join(elems, sep)] for a one-byte separator. *)
Fixpoint Join (elems : list string) (sep : ascii) : string :=
  match elems with
  | [] => ""
  | [e] => e
  | e :: rest => e +:+ String sep (Join rest sep)
  end.

(** Every byte of [s] occurs in [cutset]. *)
Fixpoint all_in_cutset (s cutset : string) : bool :=
  match s with
  | EmptyString => true
  | String c s' => in_cutset c cutset && all_in_cutset s' cutset
  end.

(** A token together with the padding written before and after it. *)
Record padded_token := { pad_left : string; token : string; pad_right : string }.

Definition with_padding (t : padded_token) : string :=
  pad_left t +:+ token t +:+ pad_right t.

(** The padding consists of space characters and the token has no comma. *)
Definition space_padded (t : padded_token) : Prop :=
  all_in_cutset (pad_left t) " " = true
  /\ all_in_cutset (pad_right t) " " = true
  /\ Count (token t) "," = 0.

(** Two results of [Parse] agree up to the raw input carried by the error:
    the same [By] value, and either no error on both sides or errors with
    the same reason. *)
Definition same_outcome (x y : By * option error) : Prop :=
  fst x = fst y /\ (snd x ≫= error_reason) = (snd y ≫= error_reason)
  /\ (is_Some (snd x) <-> is_Some (snd y)).

(** [sub] occurs in [s] as a contiguous substring ([strings.Contains]). *)
Fixpoint Contains (s sub : string) : bool :=
  String.prefix sub s ||
  match s with
  | EmptyString => false
  | String _ s' => Contains s' sub
  end.

(** The loop of [NewFieldSet], started from any map. *)
Definition store_all (fields : list Field) (m : gmap string Field)
  : gmap string Field :=
  fold_left (fun m field => <[Field_name field := field]> m) fields m.

(** * Properties *)

Example parse_name_desc :
  Parse (request_of " name , DESC ")
        (NewFieldSet [snd (AddStorageField (NewField "name") "user_name")])
        By_zero
  = (NewBy {| Field_name := "name"; Field_storage := "user_name" |} DESC, None).
Proof. vm_compute. reflexivity. Qed.

(** ** The four ways through [Parse] *)

Section parse_cases.
Variables (r : Request) (fs : FieldSet) (d : By).

Lemma Parse_empty :
  directive r = "" -> Parse r fs d = (d, None).
Proof.
  unfold Parse, directive. intros ->. reflexivity.
Qed.

Lemma Parse_nonempty_eqb :
  directive r <> "" -> String.eqb (directive r) "" = false.
Proof.
  intros Hne. apply String.eqb_neq. exact Hne.
Qed.

Lemma Parse_one (p0 : string) :
  directive r <> "" ->
  Split (directive r) "," = [p0] ->
  Parse r fs d =
    match FieldSet_fields fs !! Trim p0 " " with
    | Some f => (NewBy f ASC, None)
    | None =>
        (By_zero,
         Some (NewFieldsError (directive r) (errors_New "parsing fields")))
    end.
Proof.
  intros Hne Hsplit. unfold Parse. fold (directive r).
  rewrite (Parse_nonempty_eqb Hne). cbv zeta. rewrite Hsplit.
  unfold parseField. destruct (FieldSet_fields fs !! Trim p0 " "); reflexivity.
Qed.

Lemma Parse_two (p0 p1 : string) :
  directive r <> "" ->
  Split (directive r) "," = [p0; p1] ->
  Parse r fs d =
    match FieldSet_fields fs !! Trim p0 " " with
    | Some f =>
        match directions !! Trim p1 " " with
        | Some dir => (NewBy f dir, None)
        | None =>
            (By_zero,
             Some (NewFieldsError (directive r)
                     (errors_New "parsing direction")))
        end
    | None =>
        (By_zero,
         Some (NewFieldsError (directive r) (errors_New "parsing fields")))
    end.
Proof.
  intros Hne Hsplit. unfold Parse. fold (directive r).
  rewrite (Parse_nonempty_eqb Hne). cbv zeta. rewrite Hsplit.
  unfold parseField, parseDirection.
  destruct (FieldSet_fields fs !! Trim p0 " "); [|reflexivity].
  destruct (directions !! Trim p1 " "); reflexivity.
Qed.

Lemma Parse_many :
  directive r <> "" ->
  2 < length (Split (directive r) ",") ->
  Parse r fs d =
    (By_zero,
     Some (NewFieldsError (directive r) (errors_New "unknown order field"))).
Proof.
  intros Hne Hlen. unfold Parse. fold (directive r).
  rewrite (Parse_nonempty_eqb Hne). cbv zeta.
  destruct (Split (directive r) ",") as [|p0 [|p1 [|p2 ps]]];
    simpl in Hlen; try lia; reflexivity.
Qed.
End parse_cases.

(** ** The known directions *)

Lemma directions_lookup (value : string) :
  directions !! value =
    if decide (value = "DESC") then Some DESC
    else if decide (value = "ASC") then Some ASC
    else None.
Proof.
  unfold directions. cbn [Direction_name ASC DESC].
  rewrite lookup_insert.
  destruct (decide ("DESC" = value)) as [<-|Hd].
  - reflexivity.
  - rewrite decide_False by congruence.
    rewrite lookup_insert.
    destruct (decide ("ASC" = value)) as [<-|Ha].
    + reflexivity.
    + rewrite decide_False by congruence. apply lookup_empty.
Qed.

Lemma directions_lookup_name (dir : Direction) :
  dir = ASC \/ dir = DESC -> directions !! Direction_name dir = Some dir.
Proof.
  intros [-> | ->]; rewrite directions_lookup; reflexivity.
Qed.

Lemma directions_lookup_None (value : string) :
  value <> "ASC" -> value <> "DESC" -> directions !! value = None.
Proof.
  intros Ha Hd. rewrite directions_lookup.
  rewrite !decide_False by assumption. reflexivity.
Qed.

(** ** Splitting *)

Section split.
Variable sep : ascii.

Lemma Split_not_nil (s : string) : Split s sep <> [].
Proof.
  destruct s as [|c s]; simpl; [discriminate|].
  destruct (Ascii.eqb c sep); [discriminate|].
  destruct (Split s sep); discriminate.
Qed.

Lemma Split_cons_other (c : ascii) (s : string) :
  Ascii.eqb c sep = false ->
  exists p ps, Split s sep = p :: ps /\ Split (String c s) sep = String c p :: ps.
Proof.
  intros Hc. simpl. rewrite Hc.
  destruct (Split s sep) as [|p ps] eqn:Hs.
  - destruct (Split_not_nil _ Hs).
  - exists p, ps. split; reflexivity.
Qed.

(** The separators cut the string into one part more than there are
    separators. *)
Lemma length_Split (s : string) : length (Split s sep) = S (Count s sep).
Proof.
  induction s as [|c s IH]; [reflexivity|].
  destruct (Ascii.eqb c sep) eqn:Hc.
  - simpl. rewrite Hc. simpl. rewrite IH. reflexivity.
  - destruct (Split_cons_other c s Hc) as (p & ps & Hs & ->).
    simpl. rewrite Hc. rewrite Hs in IH. simpl in IH. lia.
Qed.

Lemma Count_app (s t : string) :
  Count (s +:+ t) sep = Count s sep + Count t sep.
Proof.
  induction s as [|c s IH]; simpl; [reflexivity|]. rewrite IH. lia.
Qed.

Lemma Split_without_sep (s : string) : Count s sep = 0 -> Split s sep = [s].
Proof.
  induction s as [|c s IH]; [reflexivity|].
  simpl. destruct (Ascii.eqb c sep); [discriminate|].
  simpl. intros Hs. rewrite (IH Hs). reflexivity.
Qed.

Lemma Split_app_sep (s t : string) :
  Count s sep = 0 -> Split (s +:+ String sep t) sep = s :: Split t sep.
Proof.
  induction s as [|c s IH]; simpl.
  - intros _. rewrite Ascii.eqb_refl. reflexivity.
  - destruct (Ascii.eqb c sep); [discriminate|].
    simpl. intros Hs. rewrite (IH Hs). reflexivity.
Qed.

(** Splitting undoes joining when no element contains the separator. *)
Lemma Split_Join (elems : list string) :
  elems <> [] ->
  Forall (fun e => Count e sep = 0) elems ->
  Split (Join elems sep) sep = elems.
Proof.
  induction elems as [|e rest IH]; [congruence|].
  intros _ Hall. apply Forall_cons in Hall as [He Hrest].
  destruct rest as [|e' rest].
  - simpl. apply Split_without_sep, He.
  - change (Join (e :: e' :: rest) sep)
      with (e +:+ String sep (Join (e' :: rest) sep)).
    rewrite (Split_app_sep _ _ He), IH by (congruence || assumption).
    reflexivity.
Qed.

Lemma Join_cons_nonempty (e e' : string) (rest : list string) :
  Join (e :: e' :: rest) sep <> "".
Proof.
  change (Join (e :: e' :: rest) sep)
    with (e +:+ String sep (Join (e' :: rest) sep)).
  destruct e; discriminate.
Qed.
End split.

(** ** Trimming *)

Section trim.
Variable cutset : string.

Lemma Count_all_in_cutset (s : string) (c : ascii) :
  in_cutset c cutset = false -> all_in_cutset s cutset = true ->
  Count s c = 0.
Proof.
  intros Hc. induction s as [|x s IH]; simpl; [reflexivity|].
  intros [Hx Hs]%andb_true_iff.
  destruct (Ascii.eqb x c) eqn:Hxc.
  - apply Ascii.eqb_eq in Hxc. congruence.
  - simpl. apply IH, Hs.
Qed.

Lemma TrimLeft_app_pad (pad s : string) :
  all_in_cutset pad cutset = true ->
  TrimLeft (pad +:+ s) cutset = TrimLeft s cutset.
Proof.
  induction pad as [|c pad IH]; simpl; [reflexivity|].
  intros [-> Hpad]%andb_true_iff. apply IH, Hpad.
Qed.

Lemma TrimRight_pad (pad : string) :
  all_in_cutset pad cutset = true -> TrimRight pad cutset = "".
Proof.
  induction pad as [|c pad IH]; simpl; [reflexivity|].
  intros [-> Hpad]%andb_true_iff. rewrite (IH Hpad). reflexivity.
Qed.

Lemma TrimRight_app_pad (s pad : string) :
  all_in_cutset pad cutset = true ->
  TrimRight (s +:+ pad) cutset = TrimRight s cutset.
Proof.
  intros Hpad. induction s as [|c s IH]; simpl.
  - apply TrimRight_pad, Hpad.
  - rewrite IH. reflexivity.
Qed.

Lemma Trim_pad_app (pad s : string) :
  all_in_cutset pad cutset = true ->
  Trim (pad +:+ s) cutset = Trim s cutset.
Proof.
  unfold Trim. induction pad as [|c pad IH]; simpl; [reflexivity|].
  intros [Hc Hpad]%andb_true_iff. specialize (IH Hpad).
  destruct (TrimRight (pad +:+ s) cutset) as [|x t] eqn:Ht.
  - rewrite Hc. exact IH.
  - rewrite <- IH. simpl. rewrite Hc. reflexivity.
Qed.

(** Padding made of cutset bytes around a token does not change what
    [Trim] returns. *)
Lemma Trim_padding (l t r : string) :
  all_in_cutset l cutset = true -> all_in_cutset r cutset = true ->
  Trim (l +:+ t +:+ r) cutset = Trim t cutset.
Proof.
  intros Hl Hr. rewrite (Trim_pad_app _ _ Hl).
  unfold Trim. rewrite (TrimRight_app_pad _ _ Hr). reflexivity.
Qed.
End trim.

(** ** Field sets *)

Section field_sets.
Implicit Types (fields : list Field) (m : gmap string Field).

Lemma store_all_app fields1 fields2 m :
  store_all (fields1 ++ fields2) m = store_all fields2 (store_all fields1 m).
Proof. apply fold_left_app. Qed.

(** Fields with other names leave an entry as it is. *)
Lemma store_all_lookup_other fields m (p : string) :
  Forall (fun g => Field_name g <> p) fields ->
  store_all fields m !! p = m !! p.
Proof.
  revert m. induction fields as [|g fields IH]; intros m Hall; [reflexivity|].
  apply Forall_cons in Hall as [Hg Hrest]. simpl.
  change (store_all fields (<[Field_name g := g]> m) !! p = m !! p).
  rewrite (IH _ Hrest). apply lookup_insert_ne, Hg.
Qed.

(** The names stored are those already in the map and those of the list. *)
Lemma store_all_is_Some fields m (p : string) :
  is_Some (store_all fields m !! p) <->
  is_Some (m !! p) \/ p ∈ Field_name <$> fields.
Proof.
  revert m. induction fields as [|g fields IH]; intros m.
  - simpl. rewrite elem_of_nil. tauto.
  - change (store_all (g :: fields) m)
      with (store_all fields (<[Field_name g := g]> m)).
    rewrite IH, fmap_cons, elem_of_cons, lookup_insert_is_Some.
    destruct (decide (Field_name g = p)) as [->|Hne]; [tauto|].
    split.
    + intros [[Heq | [_ Hm]] | Hin]; [congruence | auto ..].
    + intros [Hm | [Heq | Hin]]; [auto | congruence | auto].
Qed.
End field_sets.

(** C9: when a list of Fields has several Fields with the same public name,
    [NewFieldSet] keeps the last of them. Whenever [f] occurs in the list and
    no Field after it has its public name, looking that name up in the
    resulting set returns [f]; and the names present in the set are exactly
    the public names that occur in the list. *)
Theorem NewFieldSet_last_write_wins (before after : list Field) (f : Field) :
  Forall (fun g => Field_name g <> Field_name f) after ->
  let fs := NewFieldSet (before ++ f :: after) in
  FieldSet_fields fs !! Field_name f = Some f
  /\ forall p : string,
       is_Some (FieldSet_fields fs !! p) <->
       p ∈ Field_name <$> (before ++ f :: after).
Proof.
  intros Hafter fs. split.
  - unfold fs, NewFieldSet. cbn [FieldSet_fields].
    change (store_all (before ++ f :: after) ∅ !! Field_name f = Some f).
    rewrite store_all_app.
    change (store_all (f :: after) (store_all before ∅))
      with (store_all after (<[Field_name f := f]> (store_all before ∅))).
    rewrite (store_all_lookup_other _ _ _ Hafter). apply lookup_insert_eq.
  - intros p. unfold fs, NewFieldSet. cbn [FieldSet_fields].
    change (is_Some (store_all (before ++ f :: after) ∅ !! p) <->
            p ∈ Field_name <$> before ++ f :: after).
    rewrite store_all_is_Some, lookup_empty, is_Some_alt. tauto.
Qed.

Lemma NewFieldSet_last_write_wins_witness :
  let first := {| Field_name := "name"; Field_storage := "first_name" |} in
  let other := {| Field_name := "email"; Field_storage := "email" |} in
  let last := {| Field_name := "name"; Field_storage := "full_name" |} in
  Forall (fun g => Field_name g <> Field_name last) [other]
  /\ FieldSet_fields (NewFieldSet ([first; other] ++ last :: [other]))
       !! "name" = Some last.
Proof.
  intros first other last.
  assert (H : Forall (fun g => Field_name g <> Field_name last) [other]).
  { repeat constructor. discriminate. }
  split; [exact H|].
  exact (proj1 (NewFieldSet_last_write_wins [first; other] [other] last H)).
Defined.

(** ** Rendering *)

(** C2: for every By value, [Clause] returns no error and the string made of
    the Field's storage name, one space and the name of the Direction. The
    public name of the Field has no part in it: the same By with any other
    public name renders to the same string. *)
Theorem Clause_renders_storage_name (b : By) :
  snd (Clause b) = None
  /\ fst (Clause b)
     = Field_storage (By_field b) +:+ " " +:+ Direction_name (By_direction b)
  /\ forall public : string,
       Clause (NewBy {| Field_name := public;
                        Field_storage := Field_storage (By_field b) |}
                     (By_direction b))
       = Clause b.
Proof.
  split; [reflexivity|]. split; [reflexivity|].
  intros public. reflexivity.
Qed.

(** A Field whose public and storage names differ: the rendered clause is
    made of the storage name, and the public name does not occur in it. *)
Example Clause_differing_names :
  let f := snd (AddStorageField (NewField "userName") "usr_nm") in
  Clause (NewBy f DESC) = ("usr_nm DESC", None)
  /\ Contains (fst (Clause (NewBy f DESC))) (Field_name f) = false.
Proof. split; reflexivity. Qed.

(** ** Parsing: the empty directive *)

(** C3: when the directive is empty, [Parse] returns the default By as it was
    given, without an error, whatever the field set and whatever the default:
    neither its Field nor its Direction is looked up. *)
Theorem Parse_empty_directive_returns_default
    (r : Request) (fs : FieldSet) (defaultOrder : By) :
  directive r = "" -> Parse r fs defaultOrder = (defaultOrder, None).
Proof. apply Parse_empty. Qed.

Lemma Parse_empty_directive_returns_default_witness :
  let unchecked :=
    NewBy {| Field_name := "ghost"; Field_storage := "no_such_column" |}
          {| Direction_name := "sideways" |} in
  directive (request_of "") = ""
  /\ Parse (request_of "") (NewFieldSet []) unchecked = (unchecked, None).
Proof.
  intros unchecked.
  assert (H : directive (request_of "") = "") by reflexivity.
  split; [exact H|].
  exact (Parse_empty_directive_returns_default
           (request_of "") (NewFieldSet []) unchecked H).
Defined.

(** A request without the query parameter has the empty directive. *)
Lemma directive_absent : directive {| URL_Query := ∅ |} = "".
Proof. reflexivity. Qed.

(** ** Parsing: failures *)

(** C10: whenever [Parse] returns an error, the By value returned with it is
    the zero value [By{}], whose Field has empty public and storage names
    and whose Direction has the empty name; the default By and the Field
    that was already found are not returned. *)
Theorem Parse_error_returns_zero_By
    (r : Request) (fs : FieldSet) (defaultOrder : By) (e : error) :
  snd (Parse r fs defaultOrder) = Some e ->
  fst (Parse r fs defaultOrder) = By_zero
  /\ Field_name (By_field By_zero) = ""
  /\ Field_storage (By_field By_zero) = ""
  /\ Direction_name (By_direction By_zero) = "".
Proof.
  intros Herr. split; [|repeat split].
  destruct (decide (directive r = "")) as [Hempty|Hne].
  { rewrite (Parse_empty r fs defaultOrder Hempty) in Herr. discriminate. }
  destruct (Split (directive r) ",") as [|p0 [|p1 [|p2 ps]]] eqn:Hsplit.
  - destruct (Split_not_nil _ _ Hsplit).
  - rewrite (Parse_one r fs defaultOrder _ Hne Hsplit) in Herr |- *.
    destruct (FieldSet_fields fs !! Trim p0 " "); [discriminate|reflexivity].
  - rewrite (Parse_two r fs defaultOrder _ _ Hne Hsplit) in Herr |- *.
    destruct (FieldSet_fields fs !! Trim p0 " "); [|reflexivity].
    destruct (directions !! Trim p1 " "); [discriminate|reflexivity].
  - rewrite (Parse_many r fs defaultOrder Hne); [reflexivity|].
    rewrite Hsplit. simpl. lia.
Qed.

Lemma Parse_error_returns_zero_By_witness :
  let name := {| Field_name := "name"; Field_storage := "full_name" |} in
  let r := request_of "name,sideways" in
  let e := NewFieldsError "name,sideways" (errors_New "parsing direction") in
  snd (Parse r (NewFieldSet [name]) (NewBy name DESC)) = Some e
  /\ fst (Parse r (NewFieldSet [name]) (NewBy name DESC)) = By_zero.
Proof.
  intros name r e.
  assert (H : snd (Parse r (NewFieldSet [name]) (NewBy name DESC)) = Some e)
    by (vm_compute; reflexivity).
  split; [exact H|].
  exact (proj1 (Parse_error_returns_zero_By
                  r (NewFieldSet [name]) (NewBy name DESC) e H)).
Defined.

(** C6: a directive with more than one comma is split into more than two
    parts, and [Parse] fails with the validation error that carries the
    directive as it was given and the reason "unknown order field". *)
Theorem Parse_too_many_parts (r : Request) (fs : FieldSet) (defaultOrder : By) :
  1 < Count (directive r) "," ->
  directive r <> ""
  /\ 2 < length (Split (directive r) ",")
  /\ Parse r fs defaultOrder =
       (By_zero,
        Some (NewFieldsError (directive r) (errors_New "unknown order field"))).
Proof.
  intros Hcount.
  assert (Hne : directive r <> "").
  { intros Heq. rewrite Heq in Hcount. simpl in Hcount. lia. }
  assert (Hlen : 2 < length (Split (directive r) ",")).
  { rewrite length_Split. lia. }
  split; [exact Hne|]. split; [exact Hlen|].
  apply Parse_many; assumption.
Qed.

Lemma Parse_too_many_parts_witness :
  let name := {| Field_name := "a"; Field_storage := "col_a" |} in
  1 < Count (directive (request_of "a,b,c")) ","
  /\ Parse (request_of "a,b,c") (NewFieldSet [name]) (NewBy name ASC) =
       (By_zero,
        Some (NewFieldsError "a,b,c" (errors_New "unknown order field"))).
Proof.
  intros name.
  assert (H : 1 < Count (directive (request_of "a,b,c")) ",")
    by (vm_compute; lia).
  split; [exact H|].
  exact (proj2 (proj2 (Parse_too_many_parts
                         (request_of "a,b,c") (NewFieldSet [name])
                         (NewBy name ASC) H))).
Defined.

(** ** Directives of one and of two tokens *)

Lemma Split_two_tokens (t1 t2 : string) :
  Count t1 "," = 0 -> Count t2 "," = 0 ->
  Split (t1 +:+ "," +:+ t2) "," = [t1; t2].
Proof.
  intros H1 H2. change ("," +:+ t2) with (String "," t2).
  rewrite (Split_app_sep _ _ _ H1), (Split_without_sep _ _ H2). reflexivity.
Qed.

Lemma two_tokens_nonempty (t1 t2 : string) : t1 +:+ "," +:+ t2 <> "".
Proof. destruct t1; discriminate. Qed.

Section tokens.
Variables (r : Request) (fs : FieldSet) (defaultOrder : By).

(** What [Parse] does with a directive that is a single token. *)
Lemma Parse_one_token (t : string) :
  directive r = t -> t <> "" -> Count t "," = 0 ->
  Parse r fs defaultOrder =
    match FieldSet_fields fs !! Trim t " " with
    | Some f => (NewBy f ASC, None)
    | None =>
        (By_zero, Some (NewFieldsError t (errors_New "parsing fields")))
    end.
Proof.
  intros Hv Hne Hcount.
  rewrite (Parse_one r fs defaultOrder t); rewrite Hv.
  - reflexivity.
  - exact Hne.
  - apply Split_without_sep, Hcount.
Qed.

(** What [Parse] does with a directive of two tokens around a comma. *)
Lemma Parse_two_tokens (t1 t2 : string) :
  directive r = t1 +:+ "," +:+ t2 -> Count t1 "," = 0 -> Count t2 "," = 0 ->
  Parse r fs defaultOrder =
    match FieldSet_fields fs !! Trim t1 " " with
    | Some f =>
        match directions !! Trim t2 " " with
        | Some dir => (NewBy f dir, None)
        | None =>
            (By_zero,
             Some (NewFieldsError (t1 +:+ "," +:+ t2)
                     (errors_New "parsing direction")))
        end
    | None =>
        (By_zero,
         Some (NewFieldsError (t1 +:+ "," +:+ t2)
                 (errors_New "parsing fields")))
    end.
Proof.
  intros Hv H1 H2.
  rewrite (Parse_two r fs defaultOrder t1 t2); rewrite Hv.
  - reflexivity.
  - apply two_tokens_nonempty.
  - apply Split_two_tokens; assumption.
Qed.
End tokens.

(** C5: when the field token of a directive, trimmed of spaces, is not a
    public name of the field set, [Parse] fails with the validation error
    that carries the directive as it was given and the reason
    "parsing fields". This holds when the directive is that single token
    and when a comma and a second token follow it. *)
Theorem Parse_unknown_field
    (r : Request) (fs : FieldSet) (defaultOrder : By) (t : string) :
  Count t "," = 0 ->
  FieldSet_fields fs !! Trim t " " = None ->
  (directive r = t /\ t <> "")
  \/ (exists t2 : string, Count t2 "," = 0 /\ directive r = t +:+ "," +:+ t2) ->
  Parse r fs defaultOrder =
    (By_zero,
     Some (NewFieldsError (directive r) (errors_New "parsing fields"))).
Proof.
  intros Hcount Hlookup [[Hv Hne] | (t2 & Hcount2 & Hv)].
  - rewrite (Parse_one_token r fs defaultOrder t Hv Hne Hcount), Hlookup, Hv.
    reflexivity.
  - rewrite (Parse_two_tokens r fs defaultOrder t t2 Hv Hcount Hcount2).
    rewrite Hlookup, Hv. reflexivity.
Qed.

Lemma Parse_unknown_field_witness :
  let name := {| Field_name := "name"; Field_storage := "full_name" |} in
  let fs := NewFieldSet [name] in
  (Count " nme " "," = 0 /\ FieldSet_fields fs !! Trim " nme " " " = None)
  /\ Parse (request_of " nme ") fs (NewBy name DESC) =
       (By_zero, Some (NewFieldsError " nme " (errors_New "parsing fields")))
  /\ Parse (request_of " nme ,DESC") fs (NewBy name DESC) =
       (By_zero,
        Some (NewFieldsError " nme ,DESC" (errors_New "parsing fields"))).
Proof.
  intros name fs.
  assert (Hcount : Count " nme " "," = 0) by reflexivity.
  assert (Hlookup : FieldSet_fields fs !! Trim " nme " " " = None)
    by (vm_compute; reflexivity).
  split; [split; assumption|]. split.
  - apply (Parse_unknown_field (request_of " nme ") fs (NewBy name DESC)
             " nme " Hcount Hlookup).
    left. split; [reflexivity|discriminate].
  - apply (Parse_unknown_field (request_of " nme ,DESC") fs (NewBy name DESC)
             " nme " Hcount Hlookup).
    right. exists "DESC". split; reflexivity.
Defined.

(** C4, as stated, at a concrete input: the directive "nme,desc" has two
    tokens and its second token is neither "ASC" nor "DESC", yet the reason
    of the failure is "parsing fields", because the field token is looked up
    before the direction is parsed and "nme" is not in the field set. *)
Lemma Parse_bad_direction_counterexample :
  let name := {| Field_name := "name"; Field_storage := "full_name" |} in
  let fs := NewFieldSet [name] in
  let r := request_of "nme,desc" in
  Split (directive r) "," = ["nme"; "desc"]
  /\ Trim "desc" " " <> "ASC" /\ Trim "desc" " " <> "DESC"
  /\ Parse r fs (NewBy name ASC) =
       (By_zero, Some (NewFieldsError "nme,desc" (errors_New "parsing fields")))
  /\ Parse r fs (NewBy name ASC) <>
       (By_zero,
        Some (NewFieldsError "nme,desc" (errors_New "parsing direction"))).
Proof.
  intros name fs r.
  split; [reflexivity|]. split; [discriminate|]. split; [discriminate|].
  assert (H : Parse r fs (NewBy name ASC) =
              (By_zero,
               Some (NewFieldsError "nme,desc" (errors_New "parsing fields"))))
    by (vm_compute; reflexivity).
  split; [exact H|]. rewrite H. discriminate.
Qed.

(** C4, amended: for a directive of two tokens whose field token, trimmed of
    spaces, is a public name of the field set and whose second token,
    trimmed of spaces, is neither "ASC" nor "DESC" (compared byte by byte,
    so "desc" is not accepted), [Parse] fails with the validation error that
    carries the directive as it was given and the reason
    "parsing direction". *)
Theorem Parse_bad_direction
    (r : Request) (fs : FieldSet) (defaultOrder : By)
    (t1 t2 : string) (f : Field) :
  directive r = t1 +:+ "," +:+ t2 ->
  Count t1 "," = 0 -> Count t2 "," = 0 ->
  FieldSet_fields fs !! Trim t1 " " = Some f ->
  Trim t2 " " <> "ASC" -> Trim t2 " " <> "DESC" ->
  Parse r fs defaultOrder =
    (By_zero,
     Some (NewFieldsError (directive r) (errors_New "parsing direction"))).
Proof.
  intros Hv H1 H2 Hfield Hasc Hdesc.
  rewrite (Parse_two_tokens r fs defaultOrder t1 t2 Hv H1 H2).
  rewrite Hfield, (directions_lookup_None _ Hasc Hdesc), Hv. reflexivity.
Qed.

Lemma Parse_bad_direction_witness :
  let name := {| Field_name := "name"; Field_storage := "full_name" |} in
  let fs := NewFieldSet [name] in
  (FieldSet_fields fs !! Trim "name" " " = Some name
   /\ Trim " desc" " " <> "ASC" /\ Trim " desc" " " <> "DESC")
  /\ Parse (request_of "name, desc") fs (NewBy name ASC) =
       (By_zero,
        Some (NewFieldsError "name, desc" (errors_New "parsing direction"))).
Proof.
  intros name fs.
  assert (Hfield : FieldSet_fields fs !! Trim "name" " " = Some name)
    by (vm_compute; reflexivity).
  assert (Hasc : Trim " desc" " " <> "ASC") by discriminate.
  assert (Hdesc : Trim " desc" " " <> "DESC") by discriminate.
  split; [repeat split; assumption|].
  exact (Parse_bad_direction (request_of "name, desc") fs (NewBy name ASC)
           "name" " desc" name eq_refl eq_refl eq_refl Hfield Hasc Hdesc).
Defined.

(** ** Parsing: successes *)

(** C8, as stated, at a concrete input: the field set holds a Field whose
    public name is " name", with a leading space. The directive " name" is
    equal to that public name, but [Parse] trims it to "name" before the
    lookup and fails. *)
Lemma Parse_single_field_counterexample :
  let spaced := {| Field_name := " name"; Field_storage := "full_name" |} in
  let fs := NewFieldSet [spaced] in
  let r := request_of " name" in
  FieldSet_fields fs !! " name" = Some spaced
  /\ directive r = Field_name spaced
  /\ Split (directive r) "," = [" name"]
  /\ Parse r fs (NewBy spaced DESC) =
       (By_zero, Some (NewFieldsError " name" (errors_New "parsing fields")))
  /\ Parse r fs (NewBy spaced DESC) <> (NewBy spaced ASC, None).
Proof.
  intros spaced fs r.
  split; [vm_compute; reflexivity|]. split; [reflexivity|].
  split; [reflexivity|].
  assert (H : Parse r fs (NewBy spaced DESC) =
              (By_zero,
               Some (NewFieldsError " name" (errors_New "parsing fields"))))
    by (vm_compute; reflexivity).
  split; [exact H|]. rewrite H. discriminate.
Qed.

(** C8, amended: for a non-empty directive without comma that, trimmed of
    spaces, is a public name of the field set, [Parse] succeeds with the By
    that pairs the Field stored under that name with [ASC]. A public name
    that neither starts nor ends with a space is such a directive. *)
Theorem Parse_single_field
    (r : Request) (fs : FieldSet) (defaultOrder : By) (t : string) (f : Field) :
  directive r = t -> t <> "" -> Count t "," = 0 ->
  FieldSet_fields fs !! Trim t " " = Some f ->
  Parse r fs defaultOrder = (NewBy f ASC, None).
Proof.
  intros Hv Hne Hcount Hfield.
  rewrite (Parse_one_token r fs defaultOrder t Hv Hne Hcount), Hfield.
  reflexivity.
Qed.

Lemma Parse_single_field_witness :
  let name := {| Field_name := "name"; Field_storage := "full_name" |} in
  let fs := NewFieldSet [name] in
  FieldSet_fields fs !! Trim "name" " " = Some name
  /\ Parse (request_of "name") fs (NewBy name DESC) = (NewBy name ASC, None).
Proof.
  intros name fs.
  assert (Hfield : FieldSet_fields fs !! Trim "name" " " = Some name)
    by (vm_compute; reflexivity).
  split; [exact Hfield|].
  refine (Parse_single_field (request_of "name") fs (NewBy name DESC)
            "name" name eq_refl _ eq_refl Hfield).
  discriminate.
Defined.

(** With a Field whose public name is empty in the field set, the directive
    equal to that name is the empty directive, and the default is returned. *)
Lemma Parse_single_field_empty_name :
  let anonymous := {| Field_name := ""; Field_storage := "id" |} in
  let other := {| Field_name := "name"; Field_storage := "full_name" |} in
  let fs := NewFieldSet [anonymous; other] in
  FieldSet_fields fs !! "" = Some anonymous
  /\ Parse (request_of "") fs (NewBy other DESC) = (NewBy other DESC, None).
Proof. split; vm_compute; reflexivity. Qed.

(** C1, as stated, at two concrete inputs. A Field whose public name
    contains a comma is present in the field set, but the directive made of
    that name, a comma and "DESC" is split into three parts and rejected. A
    Field whose public name ends with a space is present, but the name is
    trimmed before the lookup and not found. *)
Lemma Parse_field_and_direction_counterexample :
  let both := {| Field_name := "first,last"; Field_storage := "full_name" |} in
  let spaced := {| Field_name := "name "; Field_storage := "full_name" |} in
  let fs := NewFieldSet [both; spaced] in
  (FieldSet_fields fs !! "first,last" = Some both
   /\ Parse (request_of ("first,last" +:+ "," +:+ Direction_name DESC))
            fs (NewBy both ASC)
      = (By_zero,
         Some (NewFieldsError "first,last,DESC"
                 (errors_New "unknown order field")))
   /\ Parse (request_of ("first,last" +:+ "," +:+ Direction_name DESC))
            fs (NewBy both ASC)
      <> (NewBy both DESC, None))
  /\ (FieldSet_fields fs !! "name " = Some spaced
      /\ Parse (request_of ("name " +:+ "," +:+ Direction_name ASC))
               fs (NewBy both ASC)
         = (By_zero,
            Some (NewFieldsError "name ,ASC" (errors_New "parsing fields")))
      /\ Parse (request_of ("name " +:+ "," +:+ Direction_name ASC))
               fs (NewBy both ASC)
         <> (NewBy spaced ASC, None)).
Proof.
  intros both spaced fs. split.
  - split; [vm_compute; reflexivity|].
    assert (H : Parse (request_of ("first,last" +:+ "," +:+ Direction_name DESC))
                  fs (NewBy both ASC)
                = (By_zero,
                   Some (NewFieldsError "first,last,DESC"
                           (errors_New "unknown order field"))))
      by (vm_compute; reflexivity).
    split; [exact H|]. rewrite H. discriminate.
  - split; [vm_compute; reflexivity|].
    assert (H : Parse (request_of ("name " +:+ "," +:+ Direction_name ASC))
                  fs (NewBy both ASC)
                = (By_zero,
                   Some (NewFieldsError "name ,ASC"
                           (errors_New "parsing fields"))))
      by (vm_compute; reflexivity).
    split; [exact H|]. rewrite H. discriminate.
Qed.

(** C1, amended: for every field set, every Field [f] stored in it under a
    public name [p] that contains no comma and neither starts nor ends with a
    space, and every Direction [dir] among [ASC] and [DESC], parsing the
    directive [p], a comma and the name of [dir] succeeds with the By made of
    [f] and [dir], and [Clause] renders that By as the storage name of [f],
    a space and the name of [dir]. *)
Theorem Parse_field_and_direction
    (r : Request) (fs : FieldSet) (defaultOrder : By)
    (p : string) (f : Field) (dir : Direction) :
  Count p "," = 0 ->
  Trim p " " = p ->
  FieldSet_fields fs !! p = Some f ->
  dir = ASC \/ dir = DESC ->
  directive r = p +:+ "," +:+ Direction_name dir ->
  Parse r fs defaultOrder = (NewBy f dir, None)
  /\ Clause (NewBy f dir)
     = (Field_storage f +:+ " " +:+ Direction_name dir, None).
Proof.
  intros Hcount Htrim Hfield Hdir Hv. split; [|reflexivity].
  assert (Hname : Count (Direction_name dir) "," = 0
                  /\ Trim (Direction_name dir) " " = Direction_name dir).
  { destruct Hdir as [-> | ->]; split; reflexivity. }
  destruct Hname as [Hcount2 Htrim2].
  rewrite (Parse_two_tokens r fs defaultOrder p _ Hv Hcount Hcount2).
  rewrite Htrim, Hfield, Htrim2, (directions_lookup_name _ Hdir).
  reflexivity.
Qed.

Lemma Parse_field_and_direction_witness :
  let name := {| Field_name := "name"; Field_storage := "full_name" |} in
  let fs := NewFieldSet [name] in
  (Count "name" "," = 0 /\ Trim "name" " " = "name"
   /\ FieldSet_fields fs !! "name" = Some name)
  /\ Parse (request_of "name,DESC") fs (NewBy name ASC) = (NewBy name DESC, None)
  /\ Clause (NewBy name DESC) = ("full_name DESC", None).
Proof.
  intros name fs.
  assert (Hfield : FieldSet_fields fs !! "name" = Some name)
    by (vm_compute; reflexivity).
  split; [repeat split; assumption|].
  exact (Parse_field_and_direction (request_of "name,DESC") fs (NewBy name ASC)
           "name" name DESC eq_refl eq_refl Hfield (or_intror eq_refl)
           eq_refl).
Defined.

(** ** Parsing: padding around the tokens *)

(** The error returned by [Parse] carries the directive as it was given. *)
Lemma Parse_error_carries_directive
    (r : Request) (fs : FieldSet) (defaultOrder : By) (e : error) :
  snd (Parse r fs defaultOrder) = Some e -> error_field e = Some (directive r).
Proof.
  intros Herr.
  destruct (decide (directive r = "")) as [Hempty|Hne].
  { rewrite (Parse_empty r fs defaultOrder Hempty) in Herr. discriminate. }
  destruct (Split (directive r) ",") as [|p0 [|p1 [|p2 ps]]] eqn:Hsplit.
  - destruct (Split_not_nil _ _ Hsplit).
  - rewrite (Parse_one r fs defaultOrder _ Hne Hsplit) in Herr.
    destruct (FieldSet_fields fs !! Trim p0 " "); [discriminate|].
    injection Herr as <-. reflexivity.
  - rewrite (Parse_two r fs defaultOrder _ _ Hne Hsplit) in Herr.
    destruct (FieldSet_fields fs !! Trim p0 " ");
      [destruct (directions !! Trim p1 " "); [discriminate|]|];
      injection Herr as <-; reflexivity.
  - rewrite (Parse_many r fs defaultOrder Hne) in Herr.
    + injection Herr as <-. reflexivity.
    + rewrite Hsplit. simpl. lia.
Qed.

(** [Parse] looks at a non-empty directive only through its trimmed parts:
    two directives with the same trimmed parts have the same outcome. *)
Lemma Parse_same_parts (r r' : Request) (fs : FieldSet) (defaultOrder : By) :
  directive r <> "" -> directive r' <> "" ->
  (fun p => Trim p " ") <$> Split (directive r) ","
    = (fun p => Trim p " ") <$> Split (directive r') "," ->
  same_outcome (Parse r fs defaultOrder) (Parse r' fs defaultOrder).
Proof.
  intros Hne Hne' Hparts.
  destruct (Split (directive r) ",") as [|p0 [|p1 [|p2 ps]]] eqn:Hs;
    destruct (Split (directive r') ",") as [|q0 [|q1 [|q2 qs]]] eqn:Hs';
    try discriminate Hparts.
  - destruct (Split_not_nil _ _ Hs).
  - injection Hparts as H0.
    rewrite (Parse_one r fs defaultOrder _ Hne Hs).
    rewrite (Parse_one r' fs defaultOrder _ Hne' Hs'). rewrite H0.
    destruct (FieldSet_fields fs !! Trim q0 " "); repeat split; auto.
  - injection Hparts as H0 H1.
    rewrite (Parse_two r fs defaultOrder _ _ Hne Hs).
    rewrite (Parse_two r' fs defaultOrder _ _ Hne' Hs'). rewrite H0, H1.
    destruct (FieldSet_fields fs !! Trim q0 " ");
      [destruct (directions !! Trim q1 " ")|]; repeat split; auto.
  - rewrite (Parse_many r fs defaultOrder Hne) by (rewrite Hs; simpl; lia).
    rewrite (Parse_many r' fs defaultOrder Hne') by (rewrite Hs'; simpl; lia).
    repeat split; auto.
Qed.

Section padding.
Implicit Types (t : padded_token) (toks : list padded_token).

Lemma with_padding_Count t :
  space_padded t -> Count (with_padding t) "," = 0.
Proof.
  intros (Hl & Hr & Ht). unfold with_padding.
  rewrite !Count_app, Ht.
  rewrite (Count_all_in_cutset " " (pad_left t) ","),
          (Count_all_in_cutset " " (pad_right t) ",");
    auto.
Qed.

Lemma with_padding_Trim t :
  space_padded t -> Trim (with_padding t) " " = Trim (token t) " ".
Proof.
  intros (Hl & Hr & _). apply Trim_padding; assumption.
Qed.

Lemma with_padding_nonempty t : token t <> "" -> with_padding t <> "".
Proof.
  unfold with_padding.
  destruct (pad_left t); [|discriminate].
  destruct (token t); [congruence|discriminate].
Qed.

Lemma Join_with_padding_nonempty toks :
  Join (token <$> toks) "," <> "" -> Join (with_padding <$> toks) "," <> "".
Proof.
  destruct toks as [|t [|t' toks]].
  - simpl. congruence.
  - simpl. apply with_padding_nonempty.
  - intros _. rewrite !fmap_cons. apply Join_cons_nonempty.
Qed.

Lemma Split_Join_with_padding toks :
  toks <> [] -> Forall space_padded toks ->
  Split (Join (with_padding <$> toks) ",") "," = with_padding <$> toks.
Proof.
  intros Hne Hall. apply Split_Join.
  - destruct toks; [congruence|discriminate].
  - apply Forall_fmap. eapply Forall_impl; [exact Hall|].
    intros t Ht. apply with_padding_Count, Ht.
Qed.

Lemma Split_Join_token toks :
  toks <> [] -> Forall space_padded toks ->
  Split (Join (token <$> toks) ",") "," = token <$> toks.
Proof.
  intros Hne Hall. apply Split_Join.
  - destruct toks; [congruence|discriminate].
  - apply Forall_fmap. eapply Forall_impl; [exact Hall|].
    intros t (_ & _ & Ht). exact Ht.
Qed.

Lemma Trim_with_padding_all toks :
  Forall space_padded toks ->
  (fun p => Trim p " ") <$> (with_padding <$> toks)
    = (fun p => Trim p " ") <$> (token <$> toks).
Proof.
  induction 1 as [|t toks Ht _ IH]; [reflexivity|].
  rewrite !fmap_cons, IH, (with_padding_Trim _ Ht). reflexivity.
Qed.
End padding.

(** C7, as stated, at three concrete inputs. A directive made of one space
    is not empty, so it is parsed and rejected, while the empty directive
    returns the default. A rejected directive is carried by the error as it
    was given, padding included, so the two errors differ. A tab is not in
    the cutset of [Trim] and stays part of the token. *)
Lemma Parse_padding_counterexample :
  let name := {| Field_name := "name"; Field_storage := "full_name" |} in
  let fs := NewFieldSet [name] in
  let default := NewBy name DESC in
  (Parse (request_of " ") fs default
     = (By_zero, Some (NewFieldsError " " (errors_New "parsing fields")))
   /\ Parse (request_of "") fs default = (default, None)
   /\ Parse (request_of " ") fs default <> Parse (request_of "") fs default)
  /\ (Parse (request_of " nme , DESC ") fs default
        = (By_zero,
           Some (NewFieldsError " nme , DESC " (errors_New "parsing fields")))
      /\ Parse (request_of "nme,DESC") fs default
           = (By_zero,
              Some (NewFieldsError "nme,DESC" (errors_New "parsing fields")))
      /\ Parse (request_of " nme , DESC ") fs default
           <> Parse (request_of "nme,DESC") fs default)
  /\ (Parse (request_of (String "009" "name")) fs default
        = (By_zero,
           Some (NewFieldsError (String "009" "name")
                   (errors_New "parsing fields")))
      /\ Parse (request_of "name") fs default = (NewBy name ASC, None)
      /\ Parse (request_of (String "009" "name")) fs default
           <> Parse (request_of "name") fs default).
Proof.
  intros name fs default.
  repeat split; try (vm_compute; reflexivity); vm_compute; discriminate.
Qed.

(** C7, amended: take a directive whose comma-separated tokens are written
    with space characters before and after them, and the directive with the
    same tokens without that padding, the latter not empty. For every field
    set and default, [Parse] has the same outcome on both: the same By and no
    error, or the zero By and an error with the same reason. Each error
    carries the directive it was given, so the two errors differ in the raw
    input when the padding is not empty. *)
Theorem Parse_ignores_space_padding
    (r r' : Request) (fs : FieldSet) (defaultOrder : By)
    (toks : list padded_token) :
  Forall space_padded toks ->
  directive r = Join (with_padding <$> toks) "," ->
  directive r' = Join (token <$> toks) "," ->
  directive r' <> "" ->
  same_outcome (Parse r fs defaultOrder) (Parse r' fs defaultOrder)
  /\ (forall e, snd (Parse r fs defaultOrder) = Some e ->
                error_field e = Some (directive r))
  /\ (forall e, snd (Parse r' fs defaultOrder) = Some e ->
                error_field e = Some (directive r')).
Proof.
  intros Hall Hv Hv' Hne'. split; [|split].
  - assert (Htoks : toks <> []).
    { intros ->. apply Hne'. rewrite Hv'. reflexivity. }
    apply Parse_same_parts.
    + rewrite Hv. apply Join_with_padding_nonempty. rewrite <- Hv'. exact Hne'.
    + exact Hne'.
    + rewrite Hv, Hv'.
      rewrite (Split_Join_with_padding _ Htoks Hall).
      rewrite (Split_Join_token _ Htoks Hall).
      apply Trim_with_padding_all, Hall.
  - intros e. apply Parse_error_carries_directive.
  - intros e. apply Parse_error_carries_directive.
Qed.

Lemma Parse_ignores_space_padding_witness :
  let name := {| Field_name := "name"; Field_storage := "full_name" |} in
  let fs := NewFieldSet [name] in
  let toks := [ {| pad_left := " "; token := "name"; pad_right := " " |};
                {| pad_left := " "; token := "DESC"; pad_right := " " |} ] in
  (Forall space_padded toks
   /\ directive (request_of " name , DESC ") = Join (with_padding <$> toks) ","
   /\ directive (request_of "name,DESC") = Join (token <$> toks) ",")
  /\ same_outcome (Parse (request_of " name , DESC ") fs (NewBy name ASC))
                  (Parse (request_of "name,DESC") fs (NewBy name ASC)).
Proof.
  intros name fs toks.
  assert (Hall : Forall space_padded toks).
  { repeat constructor. }
  assert (Hne : directive (request_of "name,DESC") <> "") by discriminate.
  split; [repeat split; exact Hall|].
  exact (proj1 (Parse_ignores_space_padding
                  (request_of " name , DESC ") (request_of "name,DESC")
                  fs (NewBy name ASC) toks Hall eq_refl eq_refl Hne)).
Defined.

(** * Further properties of the package *)

(** ** [parseDirection] *)

(** X1: [parseDirection] succeeds exactly on the names of the two known
    directions and returns the direction of that name: a successful result
    is [ASC] or [DESC] and its name is the string that was parsed. *)
Theorem parseDirection_success_iff (value : string) (dir : Direction) :
  parseDirection value = (dir, None)
  <-> (dir = ASC \/ dir = DESC) /\ Direction_name dir = value.
Proof.
  unfold parseDirection. rewrite directions_lookup.
  destruct (decide (value = "DESC")) as [->|Hdesc];
    [|destruct (decide (value = "ASC")) as [->|Hasc]].
  - split.
    + intros [= <-]. auto.
    + intros [[-> | ->] Hname]; [discriminate Hname|reflexivity].
  - split.
    + intros [= <-]. auto.
    + intros [[-> | ->] Hname]; [reflexivity|discriminate Hname].
  - split; [discriminate|].
    intros [[-> | ->] Hname]; simpl in Hname; congruence.
Qed.

(** X2: Every other string, whatever its case or padding, is rejected with the
    zero Direction and the error "invalid direction". *)
Theorem parseDirection_failure_iff (value : string) :
  parseDirection value = (Direction_zero, Some (errors_New "invalid direction"))
  <-> value <> "ASC" /\ value <> "DESC".
Proof.
  unfold parseDirection. rewrite directions_lookup.
  destruct (decide (value = "DESC")) as [->|Hdesc];
    [|destruct (decide (value = "ASC")) as [->|Hasc]].
  - split; [discriminate|]. intros [_ Hne]. congruence.
  - split; [discriminate|]. intros [Hne _]. congruence.
  - split; [split; assumption|reflexivity].
Qed.

(** ** [NewFieldSet] and [parseField] *)

Section field_set_lookups.
Implicit Types (fields : list Field) (m : gmap string Field).

(** An entry of the map after the loop was there before, or is a Field of
    the list stored under its own name. *)
Lemma store_all_lookup_Some fields m (p : string) (f : Field) :
  store_all fields m !! p = Some f ->
  m !! p = Some f \/ (f ∈ fields /\ Field_name f = p).
Proof.
  revert m. induction fields as [|g fields IH]; intros m; [auto|].
  change (store_all (g :: fields) m)
    with (store_all fields (<[Field_name g := g]> m)).
  intros [Hm | [Hin Hname]]%IH.
  - apply lookup_insert_Some in Hm as [[Hk ->] | [_ Hm]].
    + right. split; [apply list_elem_of_here | exact Hk].
    + left. exact Hm.
  - right. split; [apply list_elem_of_further, Hin | exact Hname].
Qed.

(** When the names of the list are pairwise distinct, every Field of the
    list is the entry of its name. *)
Lemma store_all_lookup_NoDup fields (f : Field) :
  NoDup (Field_name <$> fields) -> f ∈ fields ->
  store_all fields ∅ !! Field_name f = Some f.
Proof.
  intros Hnodup (before & after & ->)%list_elem_of_split.
  rewrite store_all_app.
  change (store_all (f :: after) (store_all before ∅))
    with (store_all after (<[Field_name f := f]> (store_all before ∅))).
  rewrite store_all_lookup_other; [apply lookup_insert_eq|].
  rewrite fmap_app, fmap_cons in Hnodup.
  apply NoDup_app in Hnodup as (_ & _ & Hnodup).
  apply NoDup_cons in Hnodup as [Hnotin _].
  apply Forall_forall. intros g Hg Heq. apply Hnotin. rewrite <- Heq.
  apply list_elem_of_fmap_2, Hg.
Qed.

(** The loop adds its entries on top of the map it starts from. *)
Lemma store_all_union fields m : store_all fields m = store_all fields ∅ ∪ m.
Proof.
  revert m. induction fields as [|g fields IH]; intros m.
  - simpl. symmetry. apply (left_id_L ∅ (∪)).
  - change (store_all (g :: fields) m)
      with (store_all fields (<[Field_name g := g]> m)).
    change (store_all (g :: fields) ∅)
      with (store_all fields (<[Field_name g := g]> ∅)).
    rewrite (IH (<[Field_name g := g]> m)), (IH (<[Field_name g := g]> ∅)).
    rewrite <- (assoc_L (∪)). f_equal.
    rewrite insert_empty. apply insert_union_singleton_l.
Qed.

Lemma size_names_le (names : list string) :
  size (list_to_set names : gset string) <= length names.
Proof.
  induction names as [|x names IH].
  - rewrite list_to_set_nil, size_empty. simpl. lia.
  - rewrite list_to_set_cons, size_union_alt, size_singleton. simpl.
    assert (Hle : size (list_to_set names ∖ {[x]} : gset string)
                  <= size (list_to_set names : gset string)).
    { apply subseteq_size. intros y [Hy _]%elem_of_difference. exact Hy. }
    lia.
Qed.

Lemma store_all_dom fields :
  dom (store_all fields ∅) = list_to_set (Field_name <$> fields).
Proof.
  apply set_eq. intros p.
  rewrite elem_of_dom, store_all_is_Some, lookup_empty, is_Some_alt.
  rewrite elem_of_list_to_set. tauto.
Qed.
End field_set_lookups.

(** X3: A Field that [parseField] returns from a set built by [NewFieldSet] is
    one of the Fields the set was built from, and its public name is the
    string that was looked up. *)
Theorem parseField_NewFieldSet_sound
    (fields : list Field) (p : string) (f : Field) :
  parseField (NewFieldSet fields) p = (f, None) ->
  f ∈ fields /\ Field_name f = p.
Proof.
  unfold parseField, NewFieldSet. cbn [FieldSet_fields].
  change (fold_left _ fields ∅) with (store_all fields ∅).
  destruct (store_all fields ∅ !! p) as [g|] eqn:Hlookup; [|discriminate].
  intros [= ->].
  apply store_all_lookup_Some in Hlookup as [Hempty | Hin]; [|exact Hin].
  rewrite lookup_empty in Hempty. discriminate.
Qed.

Lemma parseField_NewFieldSet_sound_witness :
  let name := {| Field_name := "name"; Field_storage := "full_name" |} in
  let email := {| Field_name := "email"; Field_storage := "mail" |} in
  parseField (NewFieldSet [name; email]) "email" = (email, None)
  /\ email ∈ [name; email] /\ Field_name email = "email".
Proof.
  intros name email.
  assert (H : parseField (NewFieldSet [name; email]) "email" = (email, None))
    by (vm_compute; reflexivity).
  split; [exact H|].
  exact (parseField_NewFieldSet_sound [name; email] "email" email H).
Defined.

(** X4: [parseField] fails on a set built by [NewFieldSet] exactly for the
    strings that are the public name of no Field of the list; it then
    returns the zero Field and an error that quotes the string. *)
Theorem parseField_NewFieldSet_unknown_iff (fields : list Field) (p : string) :
  parseField (NewFieldSet fields) p
    = (Field_zero, Some (fmt_Errorf "field %q not found" p))
  <-> p ∉ Field_name <$> fields.
Proof.
  unfold parseField, NewFieldSet. cbn [FieldSet_fields].
  change (fold_left _ fields ∅) with (store_all fields ∅).
  pose proof (store_all_is_Some fields ∅ p) as [Hfound Hstored].
  destruct (store_all fields ∅ !! p) as [g|].
  - split; [discriminate|]. intros Hnotin. destruct Hnotin.
    destruct Hfound as [[h Hh] | Hin]; [eauto | | exact Hin].
    rewrite lookup_empty in Hh. discriminate.
  - split; [|reflexivity]. intros _ Hin.
    destruct Hstored as [h Hh]; [right; exact Hin | discriminate].
Qed.

(** X5: Building a set from two lists one after the other gives the entries of
    the second list, and those entries of the first list whose name does not
    occur in the second. *)
Theorem NewFieldSet_app (fields1 fields2 : list Field) :
  FieldSet_fields (NewFieldSet (fields1 ++ fields2))
  = FieldSet_fields (NewFieldSet fields2) ∪ FieldSet_fields (NewFieldSet fields1).
Proof.
  unfold NewFieldSet. cbn [FieldSet_fields].
  change (store_all (fields1 ++ fields2) ∅
          = store_all fields2 ∅ ∪ store_all fields1 ∅).
  rewrite store_all_app. apply store_all_union.
Qed.

(** X6: When the public names of the Fields are pairwise distinct, the order of
    the arguments of [NewFieldSet] does not matter. *)
Theorem NewFieldSet_Permutation (fields fields' : list Field) :
  NoDup (Field_name <$> fields) ->
  fields ≡ₚ fields' ->
  NewFieldSet fields = NewFieldSet fields'.
Proof.
  intros Hnodup Hperm.
  assert (Hnodup' : NoDup (Field_name <$> fields')).
  { rewrite <- Hperm. exact Hnodup. }
  unfold NewFieldSet. f_equal.
  change (store_all fields ∅ = store_all fields' ∅).
  apply map_eq. intros p. apply option_eq. intros f. split.
  - intros [Hempty | [Hin <-]]%store_all_lookup_Some.
    + rewrite lookup_empty in Hempty. discriminate.
    + apply store_all_lookup_NoDup; [exact Hnodup'|]. rewrite <- Hperm. exact Hin.
  - intros [Hempty | [Hin <-]]%store_all_lookup_Some.
    + rewrite lookup_empty in Hempty. discriminate.
    + apply store_all_lookup_NoDup; [exact Hnodup|]. rewrite Hperm. exact Hin.
Qed.

Lemma NewFieldSet_Permutation_witness :
  let name := {| Field_name := "name"; Field_storage := "full_name" |} in
  let email := {| Field_name := "email"; Field_storage := "mail" |} in
  NoDup (Field_name <$> [name; email])
  /\ NewFieldSet [name; email] = NewFieldSet [email; name].
Proof.
  intros name email.
  assert (Hnodup : NoDup (Field_name <$> [name; email])).
  { apply (bool_decide_unpack _). vm_compute. exact I. }
  split; [exact Hnodup|].
  exact (NewFieldSet_Permutation [name; email] [email; name] Hnodup
           (Permutation_swap email name [])).
Defined.

(** X7: A set never has more entries than the list it was built from, and it has
    as many when the public names are pairwise distinct. *)
Theorem NewFieldSet_size (fields : list Field) :
  size (FieldSet_fields (NewFieldSet fields)) <= length fields
  /\ (NoDup (Field_name <$> fields) ->
      size (FieldSet_fields (NewFieldSet fields)) = length fields).
Proof.
  unfold NewFieldSet. cbn [FieldSet_fields].
  change (fold_left _ fields ∅) with (store_all fields ∅).
  rewrite <- (size_dom (D := gset string)), store_all_dom. split.
  - rewrite <- (length_fmap Field_name fields). apply size_names_le.
  - intros Hnodup. rewrite size_list_to_set by exact Hnodup.
    apply length_fmap.
Qed.

Lemma NewFieldSet_size_witness :
  let name := {| Field_name := "name"; Field_storage := "full_name" |} in
  let email := {| Field_name := "email"; Field_storage := "mail" |} in
  NoDup (Field_name <$> [name; email])
  /\ size (FieldSet_fields (NewFieldSet [name; email])) = 2.
Proof.
  intros name email.
  assert (Hnodup : NoDup (Field_name <$> [name; email])).
  { apply (bool_decide_unpack _). vm_compute. exact I. }
  split; [exact Hnodup|].
  exact (proj2 (NewFieldSet_size [name; email]) Hnodup).
Defined.

(** ** [Parse]: what a result can be *)

(** X8: The default is used for the empty directive only: on a non-empty
    directive the result of [Parse] is the same for every default. *)
Theorem Parse_default_unused
    (r : Request) (fs : FieldSet) (defaultOrder defaultOrder' : By) :
  directive r <> "" ->
  Parse r fs defaultOrder = Parse r fs defaultOrder'.
Proof.
  intros Hne.
  destruct (Split (directive r) ",") as [|p0 [|p1 [|p2 ps]]] eqn:Hsplit.
  - destruct (Split_not_nil _ _ Hsplit).
  - rewrite !(Parse_one r fs _ _ Hne Hsplit). reflexivity.
  - rewrite !(Parse_two r fs _ _ _ Hne Hsplit). reflexivity.
  - rewrite !(Parse_many r fs _ Hne) by (rewrite Hsplit; simpl; lia).
    reflexivity.
Qed.

Lemma Parse_default_unused_witness :
  let name := {| Field_name := "name"; Field_storage := "full_name" |} in
  let r := request_of "name,DESC" in
  directive r <> ""
  /\ Parse r (NewFieldSet [name]) (NewBy name ASC)
     = Parse r (NewFieldSet [name]) By_zero.
Proof.
  intros name r.
  assert (Hne : directive r <> "") by discriminate.
  split; [exact Hne|].
  exact (Parse_default_unused r (NewFieldSet [name]) (NewBy name ASC) By_zero
           Hne).
Defined.

(** What a successful parse of a non-empty directive returns, by cases on
    the parts of the directive. *)
Lemma Parse_success_inv
    (r : Request) (fs : FieldSet) (defaultOrder b : By) :
  directive r <> "" ->
  Parse r fs defaultOrder = (b, None) ->
  exists (t : string) (rest : list string),
    Split (directive r) "," = t :: rest
    /\ FieldSet_fields fs !! Trim t " " = Some (By_field b)
    /\ (By_direction b = ASC \/ By_direction b = DESC).
Proof.
  intros Hne Hparse.
  destruct (Split (directive r) ",") as [|p0 [|p1 [|p2 ps]]] eqn:Hsplit.
  - destruct (Split_not_nil _ _ Hsplit).
  - rewrite (Parse_one r fs _ _ Hne Hsplit) in Hparse.
    destruct (FieldSet_fields fs !! Trim p0 " ") as [f|] eqn:Hfield;
      [|discriminate].
    injection Hparse as <-. exists p0, []. auto.
  - rewrite (Parse_two r fs _ _ _ Hne Hsplit) in Hparse.
    destruct (FieldSet_fields fs !! Trim p0 " ") as [f|] eqn:Hfield;
      [|discriminate].
    destruct (directions !! Trim p1 " ") as [dir|] eqn:Hdir; [|discriminate].
    injection Hparse as <-. exists p0, [p1]. split; [reflexivity|].
    split; [exact Hfield|]. cbn [By_direction NewBy].
    rewrite directions_lookup in Hdir.
    repeat destruct (decide _) in Hdir; inversion Hdir; auto.
  - rewrite (Parse_many r fs _ Hne) in Hparse by (rewrite Hsplit; simpl; lia).
    discriminate.
Qed.

(** X9: The field set is a whitelist: when [Parse] succeeds on a non-empty
    directive, the Field of the By it returns is the entry the set holds for
    the trimmed first part of the directive, its Direction is [ASC] or
    [DESC], and the clause of that By is the storage name of that entry
    followed by " ASC" or " DESC". *)
Theorem Parse_success_whitelisted
    (r : Request) (fs : FieldSet) (defaultOrder b : By) :
  directive r <> "" ->
  Parse r fs defaultOrder = (b, None) ->
  (exists t : string,
     head (Split (directive r) ",") = Some t
     /\ FieldSet_fields fs !! Trim t " " = Some (By_field b))
  /\ (By_direction b = ASC \/ By_direction b = DESC)
  /\ (Clause b = (Field_storage (By_field b) +:+ " ASC", None)
      \/ Clause b = (Field_storage (By_field b) +:+ " DESC", None)).
Proof.
  intros Hne Hparse.
  destruct (Parse_success_inv r fs defaultOrder b Hne Hparse)
    as (t & rest & Hsplit & Hfield & Hdir).
  split; [|split].
  - exists t. rewrite Hsplit. split; [reflexivity|exact Hfield].
  - exact Hdir.
  - unfold Clause. destruct Hdir as [-> | ->]; [left|right]; reflexivity.
Qed.

Lemma Parse_success_whitelisted_witness :
  let name := {| Field_name := "name"; Field_storage := "full_name" |} in
  let r := request_of " name , DESC" in
  (directive r <> ""
   /\ Parse r (NewFieldSet [name]) By_zero = (NewBy name DESC, None))
  /\ (Clause (NewBy name DESC) = ("full_name ASC", None)
      \/ Clause (NewBy name DESC) = ("full_name DESC", None)).
Proof.
  intros name r.
  assert (Hne : directive r <> "") by discriminate.
  assert (Hparse : Parse r (NewFieldSet [name]) By_zero = (NewBy name DESC, None))
    by (vm_compute; reflexivity).
  split; [split; assumption|].
  exact (proj2 (proj2 (Parse_success_whitelisted r (NewFieldSet [name]) By_zero
                         (NewBy name DESC) Hne Hparse))).
Defined.

(** X10: With a set built by [NewFieldSet], the Field of a successfully parsed
    non-empty directive is one of the Fields the set was built from, and its
    public name is the trimmed first part of the directive. *)
Theorem Parse_NewFieldSet_field
    (r : Request) (fields : list Field) (defaultOrder b : By) :
  directive r <> "" ->
  Parse r (NewFieldSet fields) defaultOrder = (b, None) ->
  By_field b ∈ fields
  /\ exists t : string,
       head (Split (directive r) ",") = Some t
       /\ Field_name (By_field b) = Trim t " ".
Proof.
  intros Hne Hparse.
  destruct (Parse_success_inv r _ defaultOrder b Hne Hparse)
    as (t & rest & Hsplit & Hfield & _).
  unfold NewFieldSet in Hfield. cbn [FieldSet_fields] in Hfield.
  change (fold_left _ fields ∅) with (store_all fields ∅) in Hfield.
  apply store_all_lookup_Some in Hfield as [Hempty | [Hin Hname]].
  { rewrite lookup_empty in Hempty. discriminate. }
  split; [exact Hin|]. exists t. rewrite Hsplit. split; [reflexivity|exact Hname].
Qed.

Lemma Parse_NewFieldSet_field_witness :
  let name := {| Field_name := "name"; Field_storage := "full_name" |} in
  let r := request_of " name " in
  (directive r <> ""
   /\ Parse r (NewFieldSet [name]) By_zero = (NewBy name ASC, None))
  /\ By_field (NewBy name ASC) ∈ [name].
Proof.
  intros name r.
  assert (Hne : directive r <> "") by discriminate.
  assert (Hparse : Parse r (NewFieldSet [name]) By_zero = (NewBy name ASC, None))
    by (vm_compute; reflexivity).
  split; [split; assumption|].
  exact (proj1 (Parse_NewFieldSet_field r [name] By_zero (NewBy name ASC)
                  Hne Hparse)).
Defined.

(** X11: Every error of [Parse] is the validation error built from the directive
    as it was given and one of three reasons; no error is returned for the
    empty directive. *)
Theorem Parse_error_shape
    (r : Request) (fs : FieldSet) (defaultOrder : By) (e : error) :
  snd (Parse r fs defaultOrder) = Some e ->
  directive r <> ""
  /\ exists reason : string,
       reason ∈ ["parsing fields"; "parsing direction"; "unknown order field"]
       /\ e = NewFieldsError (directive r) (errors_New reason).
Proof.
  intros Herr.
  destruct (decide (directive r = "")) as [Hempty|Hne].
  { rewrite (Parse_empty r fs defaultOrder Hempty) in Herr. discriminate. }
  split; [exact Hne|].
  destruct (Split (directive r) ",") as [|p0 [|p1 [|p2 ps]]] eqn:Hsplit.
  - destruct (Split_not_nil _ _ Hsplit).
  - rewrite (Parse_one r fs _ _ Hne Hsplit) in Herr.
    destruct (FieldSet_fields fs !! Trim p0 " "); [discriminate|].
    injection Herr as <-. exists "parsing fields".
    split; [apply list_elem_of_here|reflexivity].
  - rewrite (Parse_two r fs _ _ _ Hne Hsplit) in Herr.
    destruct (FieldSet_fields fs !! Trim p0 " ").
    + destruct (directions !! Trim p1 " "); [discriminate|].
      injection Herr as <-. exists "parsing direction".
      split; [apply list_elem_of_further, list_elem_of_here|reflexivity].
    + injection Herr as <-. exists "parsing fields".
      split; [apply list_elem_of_here|reflexivity].
  - rewrite (Parse_many r fs _ Hne) in Herr by (rewrite Hsplit; simpl; lia).
    injection Herr as <-. exists "unknown order field".
    split; [|reflexivity].
    apply list_elem_of_further, list_elem_of_further, list_elem_of_here.
Qed.

Lemma Parse_error_shape_witness :
  let name := {| Field_name := "name"; Field_storage := "full_name" |} in
  let r := request_of "name,up" in
  let e := NewFieldsError "name,up" (errors_New "parsing direction") in
  snd (Parse r (NewFieldSet [name]) By_zero) = Some e
  /\ directive r <> "".
Proof.
  intros name r e.
  assert (H : snd (Parse r (NewFieldSet [name]) By_zero) = Some e)
    by (vm_compute; reflexivity).
  split; [exact H|].
  exact (proj1 (Parse_error_shape r (NewFieldSet [name]) By_zero e H)).
Defined.

(** ** [Parse]: the direction token *)

(** X12: Writing the direction [ASC] has the same outcome as leaving the
    direction out: for a non-empty token without comma, the directive made
    of the token alone and the directive made of the token, a comma and
    "ASC" give the same By, or fail with the same reason. *)
Theorem Parse_explicit_ASC
    (r r' : Request) (fs : FieldSet) (defaultOrder : By) (t : string) :
  t <> "" -> Count t "," = 0 ->
  directive r = t ->
  directive r' = t +:+ "," +:+ Direction_name ASC ->
  same_outcome (Parse r fs defaultOrder) (Parse r' fs defaultOrder).
Proof.
  intros Hne Hcount Hv Hv'.
  rewrite (Parse_one_token r fs defaultOrder t Hv Hne Hcount).
  rewrite (Parse_two_tokens r' fs defaultOrder t _ Hv' Hcount eq_refl).
  change (Trim (Direction_name ASC) " ") with "ASC".
  rewrite (directions_lookup "ASC"). cbn [decide].
  destruct (FieldSet_fields fs !! Trim t " "); repeat split; auto.
Qed.

Lemma Parse_explicit_ASC_witness :
  let name := {| Field_name := "name"; Field_storage := "full_name" |} in
  let fs := NewFieldSet [name] in
  ("name" <> "" /\ Count "name" "," = 0)
  /\ same_outcome (Parse (request_of "name") fs By_zero)
                  (Parse (request_of "name,ASC") fs By_zero).
Proof.
  intros name fs.
  assert (Hne : "name" <> "") by discriminate.
  split; [split; [exact Hne|reflexivity]|].
  exact (Parse_explicit_ASC (request_of "name") (request_of "name,ASC")
           fs By_zero "name" Hne eq_refl eq_refl eq_refl).
Defined.

(** X13: A comma followed by nothing, or by spaces only, is not a left-out
    direction: when the field token is a public name of the field set,
    [Parse] fails with the reason "parsing direction". *)
Theorem Parse_blank_direction
    (r : Request) (fs : FieldSet) (defaultOrder : By)
    (t1 t2 : string) (f : Field) :
  directive r = t1 +:+ "," +:+ t2 ->
  Count t1 "," = 0 ->
  all_in_cutset t2 " " = true ->
  FieldSet_fields fs !! Trim t1 " " = Some f ->
  Parse r fs defaultOrder =
    (By_zero,
     Some (NewFieldsError (directive r) (errors_New "parsing direction"))).
Proof.
  intros Hv Hcount Hblank Hfield.
  assert (Hcount2 : Count t2 "," = 0).
  { apply (Count_all_in_cutset " "); [reflexivity|exact Hblank]. }
  assert (Htrim : Trim t2 " " = "").
  { unfold Trim. rewrite (TrimRight_pad _ _ Hblank). reflexivity. }
  rewrite (Parse_two_tokens r fs defaultOrder t1 t2 Hv Hcount Hcount2).
  rewrite Hfield, Htrim, Hv. reflexivity.
Qed.

Lemma Parse_blank_direction_witness :
  let name := {| Field_name := "name"; Field_storage := "full_name" |} in
  let fs := NewFieldSet [name] in
  FieldSet_fields fs !! Trim "name" " " = Some name
  /\ Parse (request_of "name,") fs (NewBy name DESC) =
       (By_zero, Some (NewFieldsError "name," (errors_New "parsing direction"))).
Proof.
  intros name fs.
  assert (Hfield : FieldSet_fields fs !! Trim "name" " " = Some name)
    by (vm_compute; reflexivity).
  split; [exact Hfield|].
  exact (Parse_blank_direction (request_of "name,") fs (NewBy name DESC)
           "name" "" name eq_refl eq_refl eq_refl Hfield).
Defined.

(** ** [Parse]: the request *)

Lemma directive_request_of (v : string) : directive (request_of v) = v.
Proof.
  unfold directive, request_of, Values_Get. cbn [URL_Query].
  rewrite lookup_singleton_eq. reflexivity.
Qed.

Lemma Parse_directive_ext
    (r r' : Request) (fs : FieldSet) (defaultOrder : By) :
  directive r = directive r' ->
  Parse r fs defaultOrder = Parse r' fs defaultOrder.
Proof.
  intros Heq. unfold Parse. fold (directive r) (directive r').
  rewrite Heq. reflexivity.
Qed.

(** X14: A request without the parameter [orderBy], with an empty list of values
    for it, or with the empty string as its first value, gets the default
    without an error. *)
Theorem Parse_without_orderBy
    (r : Request) (fs : FieldSet) (defaultOrder : By) :
  URL_Query r !! "orderBy" = None
  \/ URL_Query r !! "orderBy" = Some []
  \/ (exists rest, URL_Query r !! "orderBy" = Some ("" :: rest)) ->
  Parse r fs defaultOrder = (defaultOrder, None).
Proof.
  intros Hquery. apply Parse_empty. unfold directive, Values_Get.
  destruct Hquery as [-> | [-> | [rest ->]]]; reflexivity.
Qed.

Lemma Parse_without_orderBy_witness :
  let r := {| URL_Query := {[ "page" := ["2"] ]} |} in
  let name := {| Field_name := "name"; Field_storage := "full_name" |} in
  URL_Query r !! "orderBy" = None
  /\ Parse r (NewFieldSet [name]) (NewBy name DESC) = (NewBy name DESC, None).
Proof.
  intros r name.
  assert (H : URL_Query r !! "orderBy" = None) by (vm_compute; reflexivity).
  split; [exact H|].
  exact (Parse_without_orderBy r (NewFieldSet [name]) (NewBy name DESC)
           (or_introl H)).
Defined.

(** X15: Only the first value of [orderBy] is read: further values of the
    parameter and all other parameters of the request have no effect on the
    result. *)
Theorem Parse_first_orderBy_value
    (r : Request) (fs : FieldSet) (defaultOrder : By)
    (v : string) (rest : list string) :
  URL_Query r !! "orderBy" = Some (v :: rest) ->
  Parse r fs defaultOrder = Parse (request_of v) fs defaultOrder.
Proof.
  intros Hquery. apply Parse_directive_ext.
  rewrite directive_request_of. unfold directive, Values_Get.
  rewrite Hquery. reflexivity.
Qed.

Lemma Parse_first_orderBy_value_witness :
  let r := {| URL_Query :=
                {[ "orderBy" := ["name,DESC"; "email,ASC"]; "page" := ["2"] ]} |} in
  let name := {| Field_name := "name"; Field_storage := "full_name" |} in
  URL_Query r !! "orderBy" = Some ("name,DESC" :: ["email,ASC"])
  /\ Parse r (NewFieldSet [name]) By_zero
     = Parse (request_of "name,DESC") (NewFieldSet [name]) By_zero.
Proof.
  intros r name.
  assert (H : URL_Query r !! "orderBy" = Some ("name,DESC" :: ["email,ASC"]))
    by (vm_compute; reflexivity).
  split; [exact H|].
  exact (Parse_first_orderBy_value r (NewFieldSet [name]) By_zero
           "name,DESC" ["email,ASC"] H).
Defined.

(** ** From the configuration to the clause *)

(** X16: A Field made by [NewField] and [AddStorageField] and put into a field
    set, with no later Field of the same public name, is found by its public
    name, and the clause of the parsed By is the storage name given to
    [AddStorageField] followed by the direction. The public name must have
    no comma and no space at either end to be reachable by a directive. *)
Theorem configured_field_clause
    (r : Request) (defaultOrder : By) (before after : list Field)
    (p storage : string) (dir : Direction) :
  let f := snd (AddStorageField (NewField p) storage) in
  Count p "," = 0 ->
  Trim p " " = p ->
  Forall (fun g => Field_name g <> p) after ->
  dir = ASC \/ dir = DESC ->
  directive r = p +:+ "," +:+ Direction_name dir ->
  Parse r (NewFieldSet (before ++ f :: after)) defaultOrder = (NewBy f dir, None)
  /\ Clause (NewBy f dir) = (storage +:+ " " +:+ Direction_name dir, None).
Proof.
  intros f Hcount Htrim Hafter Hdir Hv. split; [|reflexivity].
  assert (Hname : Count (Direction_name dir) "," = 0
                  /\ Trim (Direction_name dir) " " = Direction_name dir).
  { destruct Hdir as [-> | ->]; split; reflexivity. }
  destruct Hname as [Hcount2 Htrim2].
  rewrite (Parse_two_tokens r _ defaultOrder p _ Hv Hcount Hcount2).
  rewrite Htrim, Htrim2, (directions_lookup_name _ Hdir).
  unfold NewFieldSet. cbn [FieldSet_fields].
  change (fold_left _ (before ++ f :: after) ∅)
    with (store_all (before ++ f :: after) ∅).
  rewrite store_all_app.
  change (store_all (f :: after) (store_all before ∅))
    with (store_all after (<[p := f]> (store_all before ∅))).
  rewrite (store_all_lookup_other _ _ _ Hafter), lookup_insert_eq.
  reflexivity.
Qed.

Lemma configured_field_clause_witness :
  let f := snd (AddStorageField (NewField "name") "full_name") in
  let other := snd (AddStorageField (NewField "email") "mail") in
  (Trim "name" " " = "name" /\ Forall (fun g => Field_name g <> "name") [other])
  /\ Parse (request_of "name,DESC") (NewFieldSet ([other] ++ f :: [other]))
           By_zero
     = (NewBy f DESC, None)
  /\ Clause (NewBy f DESC) = ("full_name DESC", None).
Proof.
  intros f other.
  assert (Hafter : Forall (fun g => Field_name g <> "name") [other]).
  { repeat constructor. discriminate. }
  split; [split; [reflexivity|exact Hafter]|].
  exact (configured_field_clause (request_of "name,DESC") By_zero
           [other] [other] "name" "full_name" DESC
           eq_refl eq_refl Hafter (or_intror eq_refl) eq_refl).
Defined.

(** ** [Clause]: reading the clause back *)

Lemma append_length (s t : string) :
  String.length (s +:+ t) = String.length s + String.length t.
Proof.
  induction s as [|c s IH]; simpl; [reflexivity|]. rewrite IH. reflexivity.
Qed.

Lemma append_assoc (s t u : string) : (s +:+ t) +:+ u = s +:+ t +:+ u.
Proof.
  induction s as [|c s IH]; [reflexivity|].
  change (String c ((s +:+ t) +:+ u) = String c (s +:+ t +:+ u)).
  f_equal. exact IH.
Qed.

(** Two concatenations that are equal and end in strings of the same length
    are equal part by part. *)
Lemma append_eq_same_tail (s s' t t' : string) :
  s +:+ t = s' +:+ t' -> String.length t = String.length t' ->
  s = s' /\ t = t'.
Proof.
  revert s'. induction s as [|c s IH]; intros [|c' s'] Heq Hlen.
  - split; [reflexivity|exact Heq].
  - apply (f_equal String.length) in Heq.
    change (String.length t = S (String.length (s' +:+ t'))) in Heq.
    rewrite append_length in Heq. lia.
  - apply (f_equal String.length) in Heq.
    change (S (String.length (s +:+ t)) = String.length t') in Heq.
    rewrite append_length in Heq. lia.
  - change (String c (s +:+ t) = String c' (s' +:+ t')) in Heq.
    injection Heq as -> Heq. destruct (IH s' Heq Hlen) as [-> ->].
    split; reflexivity.
Qed.

(** X17: For By values whose Direction is [ASC] or [DESC], as every By that
    [Parse] builds from a directive, the clause determines the storage name
    and the direction: two such values with the same clause have the same
    storage name and the same Direction. *)
Theorem Clause_inj (b b' : By) :
  By_direction b = ASC \/ By_direction b = DESC ->
  By_direction b' = ASC \/ By_direction b' = DESC ->
  Clause b = Clause b' ->
  Field_storage (By_field b) = Field_storage (By_field b')
  /\ By_direction b = By_direction b'.
Proof.
  unfold Clause. intros Hdir Hdir'.
  destruct Hdir as [-> | ->], Hdir' as [-> | ->];
    cbn [Direction_name ASC DESC]; intros [= Heq].
  - apply append_eq_same_tail in Heq as [-> _]; [auto|reflexivity].
  - assert (Heq' : Field_storage (By_field b) +:+ " ASC"
                   = (Field_storage (By_field b') +:+ " ") +:+ "DESC")
      by (rewrite append_assoc; exact Heq).
    apply append_eq_same_tail in Heq' as [_ Heq']; [discriminate|reflexivity].
  - assert (Heq' : (Field_storage (By_field b) +:+ " ") +:+ "DESC"
                   = Field_storage (By_field b') +:+ " ASC")
      by (rewrite append_assoc; exact Heq).
    apply append_eq_same_tail in Heq' as [_ Heq']; [discriminate|reflexivity].
  - apply append_eq_same_tail in Heq as [-> _]; [auto|reflexivity].
Qed.

Lemma Clause_inj_witness :
  let b := NewBy {| Field_name := "name"; Field_storage := "full_name" |} DESC in
  let b' := NewBy {| Field_name := "n"; Field_storage := "full_name" |} DESC in
  Clause b = Clause b'
  /\ Field_storage (By_field b) = Field_storage (By_field b')
  /\ By_direction b = By_direction b'.
Proof.
  intros b b'.
  assert (H : Clause b = Clause b') by reflexivity.
  split; [exact H|].
  exact (Clause_inj b b' (or_intror eq_refl) (or_intror eq_refl) H).
Defined.

(** Without the restriction to the known directions the clause can be read
    in two ways: [NewBy] checks nothing, and a Direction whose name holds a
    space gives the clause of another By. *)
Example Clause_not_inj_unchecked :
  Clause (NewBy {| Field_name := "a"; Field_storage := "a" |}
                {| Direction_name := "b ASC" |})
  = Clause (NewBy {| Field_name := "a"; Field_storage := "a b" |} ASC).
Proof. reflexivity. Qed.
